(** * skycoin: the webrpc envelope and the coin address codec

    A shallow embedding of [src/api/webrpc/webrpc.go] (the JSON-RPC
    envelope, its constructors, the handler registration of [makeRPC] and
    the run loop [Start]) and of the [coin] address codec ([Address],
    [Bytes], [addressFromBytes], [Checksum], [IsValidChecksum]).

    Conventions.
    - A Go pointer that may be nil ([*string], [*RPCError]) is an [option].
    - A Go [interface{}] is an optional pair of a dynamic type and a value
      of that type; the nil interface is [None].
    - A Go fixed-size array [[n]byte] is a [vec byte n]; a slice is a
      [list byte].
    - A Go run-time panic is the [Panic] of an [exec] result. *)

From Stdlib Require Import ZArith Strings.Ascii Strings.String Strings.Byte.
From stdpp Require Import base option list vector gmap strings.

Local Open Scope Z_scope.

(** ** The Go run time, as far as the two packages use it *)

Module go.

(** A computation that yields a value or stops the goroutine with a
    run-time panic. *)
Inductive exec (A : Type) : Type :=
  | Done (a : A)
  | Panic (reason : string).
Arguments Done {A} a.
Arguments Panic {A} reason.

#[global] Instance exec_ret : MRet exec := fun _ a => Done a.
#[global] Instance exec_bind : MBind exec := fun _ _ k m =>
  match m with
  | Done a => k a
  | Panic reason => Panic reason
  end.

(** [error]: nil, or the text given to [errors.New]. *)
Definition error : Type := option string.
Definition errors_New (text : string) : error := Some text.

(** The built-in [copy(dst, src)] on slices: the first
    [min(len(dst), len(src))] elements of [dst] are overwritten. The
    result is the new content of [dst]. *)
Fixpoint copy (dst src : list byte) : list byte :=
  match dst, src with
  | _ :: dst', s :: src' => s :: copy dst' src'
  | _, _ => dst
  end.

(** [copy(a[:], src)], where [a] is an array. *)
Fixpoint copy_array {n : nat} (dst : vec byte n) (src : list byte) : vec byte n :=
  match dst in Vector.t _ m return vec byte m with
  | vnil => vnil
  | vcons d dst' =>
      match src with
      | [] => vcons d dst'
      | s :: src' => vcons s (copy_array dst' src')
      end
  end.

(** The zero value of [[n]byte]. *)
Definition zero_array (n : nat) : vec byte n := vreplicate n x00.

(** [make([]byte, n)] *)
Definition make (n : nat) : list byte := replicate n x00.

(** [b[:hi]], [b[lo:]] and [b[i]] on a slice whose capacity is its
    length; each panics when the index is out of range. *)
Definition slice_to (b : list byte) (hi : nat) : exec (list byte) :=
  if decide (hi ≤ length b)%nat then Done (take hi b)
  else Panic "slice bounds out of range".

Definition slice_from (b : list byte) (lo : nat) : exec (list byte) :=
  if decide (lo ≤ length b)%nat then Done (drop lo b)
  else Panic "slice bounds out of range".

Definition index (b : list byte) (i : nat) : exec byte :=
  match b !! i with
  | Some x => Done x
  | None => Panic "index out of range"
  end.

(** [b[i] = x] *)
Definition set_index (b : list byte) (i : nat) (x : byte) : exec (list byte) :=
  if decide (i < length b)%nat then Done (<[i := x]> b)
  else Panic "index out of range".

(** [bytes.Equal]: same length and same bytes. *)
Fixpoint bytes_Equal (a b : list byte) : bool :=
  match a, b with
  | [], [] => true
  | x :: a', y :: b' => Byte.eqb x y && bytes_Equal a' b'
  | _, _ => false
  end.

End go.
Import go.

(** ** Package webrpc *)

Module webrpc.

(** The package-level [var] block, with the values it is initialised to. *)
Definition errCodeParseError     : Z := -32700.
Definition errCodeInvalidRequest : Z := -32600.
Definition errCodeMethodNotFound : Z := -32601.
Definition errCodeInvalidParams  : Z := -32602.
Definition errCodeInternalError  : Z := -32603.

Definition errMsgParseError     : string := "Parse error".
Definition errMsgInvalidRequest : string := "Invalid Request".
Definition errMsgMethodNotFound : string := "Method not found".
Definition errMsgInvalidParams  : string := "Invalid params".
Definition errMsgInternalError  : string := "Internal error".

Definition errMsgNotPost : string := "only support http POST".

Definition errMsgInvalidJsonrpc : string := "invalid jsonrpc".

Definition jsonRPC : string := "2.0".

(** [interface{}]: nil, or a value together with its dynamic type. *)
Definition iface : Type := option { T : Type & T }.

Definition iface_nil : iface := None.
Definition iface_of {T : Type} (v : T) : iface := Some (existT T v).

(** [type Request struct] *)
Record Request : Type := mkRequest {
  req_ID      : string;
  req_Jsonrpc : string;
  req_Method  : string;
  req_Params  : gmap string string
}.

(** [type RPCError struct] *)
Record RPCError : Type := mkRPCError {
  Code    : Z;
  Message : string;
  Data    : string
}.

(** [type Response struct] *)
Record Response : Type := mkResponse {
  ID      : option string;
  Jsonrpc : string;
  Error   : option RPCError;
  Result  : iface
}.

(** [func NewRequest(method string, params map[string]string, id string)],
    which returns the new Request. *)
Definition NewRequest (method : string) (params : gmap string string)
    (id : string) : Request :=
  {| req_Jsonrpc := jsonRPC;
     req_Method  := method;
     req_Params  := params;
     req_ID      := id |}.

(** [func makeSuccessResponse(id string, result interface{}) Response].
    The fields the literal does not name take their zero value. *)
Definition makeSuccessResponse (id : string) (result : iface) : Response :=
  {| ID      := Some id;
     Result  := result;
     Jsonrpc := jsonRPC;
     Error   := None |}.

(** [func makeErrorResponse(code int, message string) Response] *)
Definition makeErrorResponse (code : Z) (message : string) : Response :=
  {| Error   := Some {| Code := code; Message := message; Data := "" |};
     Jsonrpc := jsonRPC;
     ID      := None;
     Result  := None |}.

(** What the wire form of a [Response] shows: both [error] and [result]
    are tagged [omitempty], so each is present exactly when it is not nil. *)
Definition has_error (r : Response) : bool :=
  match Error r with Some _ => true | None => false end.
Definition has_result (r : Response) : bool :=
  match Result r with Some _ => true | None => false end.

Definition exactly_one (r : Response) : Prop :=
  xorb (has_result r) (has_error r) = true.

(** *** The handler registry *)

(** Modelled from the spec: the type of a handler function, which another
    file of the package declares. A handler consumes the request and the
    gateway and produces the Response. *)
Definition HandlerFunc (Gatewayer : Type) : Type :=
  Request -> Gatewayer -> Response.

(** The gateway interface and the four handlers that [makeRPC] names; they
    are declared in other files of the package. *)
Class Handlers : Type := {
  Gatewayer : Type;
  getStatusHandler     : HandlerFunc Gatewayer;
  getLastBlocksHandler : HandlerFunc Gatewayer;
  getBlocksHandler     : HandlerFunc Gatewayer;
  getOutputsHandler    : HandlerFunc Gatewayer
}.

(** A [chan struct{}] as the goroutine that polls it sees it: [c k] tells
    whether a receive can proceed (a value was sent or the channel was
    closed) the [k]-th time the channel is polled. *)
Definition chan : Type := nat -> bool.

(** Modelled from the spec: [type rpcHandler struct], with the registry
    (method name to handler), the gateway and the configuration it is
    built from. *)
Record rpcHandler `{Handlers} : Type := mkRpcHandler {
  handlers  : gmap string (HandlerFunc Gatewayer);
  gateway   : Gatewayer;
  queueSize : N;
  workerNum : N;
  quit      : chan
}.

(** Modelled from the spec: [newRPCHandler], which builds the handler
    with a registry that binds no method yet. *)
Definition newRPCHandler `{Handlers} (queueSize workerNum : N)
    (gateway : Gatewayer) (c : chan) : rpcHandler :=
  {| handlers := ∅; gateway := gateway;
     queueSize := queueSize; workerNum := workerNum; quit := c |}.

(** Modelled from the spec: the method [HandlerFunc] of [rpcHandler], the
    registration of one handler: it fails fatally when the method name is
    already bound, and binds it otherwise. *)
Definition rpcHandler_HandlerFunc `{Handlers} (rpc : rpcHandler)
    (method : string) (h : HandlerFunc Gatewayer) : exec rpcHandler :=
  match handlers rpc !! method with
  | Some _ => Panic "method already registered"
  | None =>
      Done {| handlers := <[method := h]> (handlers rpc);
              gateway := gateway rpc;
              queueSize := queueSize rpc; workerNum := workerNum rpc;
              quit := quit rpc |}
  end.

(** [func makeRPC(queueSize uint, workerNum uint, gateway Gatewayer,
    c chan struct{})], which returns the handler. *)
Definition makeRPC `{Handlers} (queueSize workerNum : N)
    (gateway : Gatewayer) (c : chan) : exec rpcHandler :=
  let rpc := newRPCHandler queueSize workerNum gateway c in
  rpc ← rpcHandler_HandlerFunc rpc "get_status" getStatusHandler;
  rpc ← rpcHandler_HandlerFunc rpc "get_lastblocks" getLastBlocksHandler;
  rpc ← rpcHandler_HandlerFunc rpc "get_blocks" getBlocksHandler;
  rpc ← rpcHandler_HandlerFunc rpc "get_outputs" getOutputsHandler;
  mret rpc.

(** The four method names that [makeRPC] passes to [HandlerFunc]. *)
Definition registered : gset string :=
  {[ "get_status"; "get_lastblocks"; "get_blocks"; "get_outputs" ]}.

(** *** The run loop *)

(** How a call of [Start] ends. [Serving] is the call that never ends: it
    stays inside [http.ListenAndServe]. [Spinning] is the model running
    out of loop iterations. *)
Inductive outcome : Type :=
  | Returned
  | Exited (status : Z)
  | Serving
  | Panicked (reason : string)
  | Spinning.

(** The effect of one call inside the loop: control comes back with a
    value, or the run of [Start] is over. *)
Inductive flow (A : Type) : Type :=
  | Next (a : A)
  | Over (o : outcome).
Arguments Next {A} a.
Arguments Over {A} o.

(** The network as [Start] meets it: the [k]-th call of
    [http.ListenAndServe] on an address either serves for ever ([None]) or
    comes back with the listener's error. *)
Definition Net : Type := nat -> string -> option string.

(** [http.ListenAndServe(addr, rpc)]: it returns only with a non-nil
    error. *)
Definition http_ListenAndServe (net : Net) (k : nat) (addr : string)
    : flow string :=
  match net k addr with
  | Some err => Next err
  | None => Over Serving
  end.

(** [logger.Info] and [logger.Infof] append a line to the log. *)
Definition logger_Info (msg : string) (log : list string) : list string :=
  log ++ [msg].

(** [logger.Fatal(v)]: the line is logged and the process exits with
    status 1; control does not come back. *)
Definition logger_Fatal (v : string) (log : list string)
    : flow unit * list string :=
  (Over (Exited 1), log ++ [v]).

(** The [for { select { ... } }] of [Start]; [k] counts the iterations. *)
Fixpoint Start_loop `{Handlers} (fuel k : nat) (addr : string)
    (rpc : rpcHandler) (c : chan) (net : Net) (log : list string)
    : outcome * list string :=
  match fuel with
  | O => (Spinning, log)
  | S fuel' =>
      if c k then
        (* case <-c: *)
        let log := logger_Info "webrpc quit" log in
        (Returned, log)
      else
        (* default: *)
        let log := logger_Info ("start webrpc on http://" +:+ addr) log in
        match http_ListenAndServe net k addr with
        | Over o => (o, log)
        | Next err =>
            match logger_Fatal err log with
            | (Over o, log) => (o, log)
            | (Next _, log) => Start_loop fuel' (S k) addr rpc c net log
            end
        end
  end.

(** [func Start(addr string, queueSize uint, workerNum uint,
    gateway Gatewayer, c chan struct{})] *)
Definition Start `{Handlers} (fuel : nat) (net : Net) (addr : string)
    (queueSize workerNum : N) (gateway : Gatewayer) (c : chan)
    : outcome * list string :=
  match makeRPC queueSize workerNum gateway c with
  | Panic reason => (Panicked reason, [])
  | Done rpc => Start_loop fuel 0 addr rpc c net []
  end.

(** *** The protocol validator *)

(** What the serving path does with one HTTP request. *)
Inductive Verdict : Type :=
  | PlainReject (text : string)
  | Answer (res : Response)
  | Admit (req : Request).

(** The assignment [res.ID = &id] to the id field of a Response. *)
Definition set_ID (res : Response) (id : string) : Response :=
  {| ID := Some id; Jsonrpc := Jsonrpc res;
     Error := Error res; Result := Result res |}.

(** Modelled from the spec: the validation that [rpcHandler.ServeHTTP]
    performs before a request is queued (another file of the package
    declares the method). [body] is the outcome of decoding the HTTP body
    as JSON into a [Request], [None] when the decoding fails. The terminal
    responses are built by [makeErrorResponse], the one constructor of an
    error Response that the package has; it leaves the id null, which is
    what a body that does not decode is answered with, and the id of a
    decoded request is written into the Response that rejects it. *)
Definition validate `{Handlers} (rpc : rpcHandler) (verb : string)
    (body : option Request) : Verdict :=
  if negb (String.eqb verb "POST") then PlainReject errMsgNotPost
  else
    match body with
    | None => Answer (makeErrorResponse errCodeParseError errMsgParseError)
    | Some req =>
        if negb (String.eqb (req_Jsonrpc req) jsonRPC) then
          Answer (set_ID
                    (makeErrorResponse errCodeInvalidRequest errMsgInvalidJsonrpc)
                    (req_ID req))
        else if String.eqb (req_Method req) "" then
          Answer (set_ID
                    (makeErrorResponse errCodeMethodNotFound errMsgMethodNotFound)
                    (req_ID req))
        else
          match handlers rpc !! req_Method req with
          | None =>
              Answer (set_ID
                        (makeErrorResponse errCodeMethodNotFound errMsgMethodNotFound)
                        (req_ID req))
          | Some _ => Admit req
          end
    end.

(** How the serving path leaves one HTTP request. *)
Inductive Served : Type :=
  | Rejected (text : string)
  | Replied (res : Response)
  | Queued
  | Overloaded
  | Stopped.

(** Modelled from the spec: the admission of a validated request to the
    bounded dispatch queue. A request that validation answers does not
    touch the queue. A validated request is not admitted once the shutdown
    channel of the handler has delivered ([k] numbers the poll of the
    channel that this call makes), which is told apart from overload;
    otherwise it is appended unless the queue already holds [queueSize]
    items. *)
Definition ServeHTTP `{Handlers} (rpc : rpcHandler) (k : nat)
    (queue : list Request) (verb : string) (body : option Request)
    : Served * list Request :=
  match validate rpc verb body with
  | PlainReject text => (Rejected text, queue)
  | Answer res => (Replied res, queue)
  | Admit req =>
      if quit rpc k then (Stopped, queue)
      else if decide (N.of_nat (length queue) < queueSize rpc)%N
      then (Queued, queue ++ [req])
      else (Overloaded, queue)
  end.

End webrpc.

(** ** Package coin: addresses *)

Module coin.

Local Open Scope nat_scope.

(** What the address codec takes from the rest of the repository: the
    SHA-256 digest of a byte string (a [[32]byte]), the public-key type
    with its address hash (a 20-byte RIPEMD-160 value) and the base58
    decoder. *)
Class Hashes : Type := {
  SumSHA256 : list byte -> vec byte 32
}.

Class Keys : Type := {
  PubKey : Type;
  ToAddressHash : PubKey -> vec byte 20
}.

Class Base58 : Type := {
  Base582Hex : string -> list byte
}.

(** [len(a)] of an array is its declared size. *)
Definition len {n : nat} (a : vec byte n) : nat := n.

(** [addressVersions], and the value [addressVersion] is initialised to. *)
Definition addressVersions : gmap string byte :=
  <["main" := x0f]> (<["test" := x1f]> ∅).

Definition addressVersion0 : byte := default x00 (addressVersions !! "test").

(** [func VersionByName(name string) (byte, bool)] *)
Definition VersionByName (name : string) : byte * bool :=
  match addressVersions !! name with
  | Some v => (v, true)
  | None => (x00, false)
  end.

(** [func MustVersionByName(name string) byte] *)
Definition MustVersionByName (name : string) : exec byte :=
  let '(v, ok) := VersionByName name in
  if negb ok then Panic ("Invalid version name: " +:+ name) else Done v.

(** [func SetAddressVersion(name string)]; the result is the new value of
    the global [addressVersion]. *)
Definition SetAddressVersion (name : string) : exec byte :=
  MustVersionByName name.

(** [type Checksum [4]byte] *)
Definition Checksum_t : Type := vec byte 4.

(** [type Address struct] *)
Record Address : Type := mkAddress {
  Key     : vec byte 20;
  Version : byte;
  ChkSum  : vec byte 4
}.

(** [var a Address] *)
Definition Address_zero : Address :=
  {| Key := zero_array 20; Version := x00; ChkSum := zero_array 4 |}.

Definition set_Key (a : Address) (k : vec byte 20) : Address :=
  {| Key := k; Version := Version a; ChkSum := ChkSum a |}.
Definition set_Version (a : Address) (v : byte) : Address :=
  {| Key := Key a; Version := v; ChkSum := ChkSum a |}.
Definition set_ChkSum (a : Address) (c : vec byte 4) : Address :=
  {| Key := Key a; Version := Version a; ChkSum := c |}.

(** [func (self *Address) Checksum() Checksum]. [self.Key[:]] has no spare
    capacity, so [append] builds a fresh slice; [r2] is an array, so
    [r2[:len(c)]] is checked when the program is compiled. *)
Definition Checksum `{Hashes} (self : Address) : Checksum_t :=
  let r1 := vec_to_list (Key self) ++ [Version self] in
  let r2 := SumSHA256 r1 in
  let c := zero_array 4 in
  copy_array c (take (len c) (vec_to_list r2)).

(** [func (self *Address) IsValidChecksum() bool] *)
Definition IsValidChecksum `{Hashes} (self : Address) : bool :=
  let c := Checksum self in
  bytes_Equal (vec_to_list c) (vec_to_list (ChkSum self)).

(** [func (self *Address) setChecksum()] *)
Definition setChecksum `{Hashes} (self : Address) : Address :=
  set_ChkSum self (Checksum self).

(** [func AddressFromPubKey(pubKey PubKey) Address]; [addressVersion] is
    the current value of the global. *)
Definition AddressFromPubKey `{Hashes} `{Keys} (addressVersion : byte)
    (pubKey : PubKey) : Address :=
  let addr := {| Version := addressVersion;
                 Key := ToAddressHash pubKey;
                 ChkSum := zero_array 4 |} in
  setChecksum addr.

(** [func addressFromBytes(b []byte) (Address, error)] *)
Definition addressFromBytes `{Hashes} (b : list byte) : exec (Address * error) :=
  let a := Address_zero in
  let keyLen := len (Key a) in
  if negb (length b =? keyLen + len (ChkSum a) + 1) then
    Done (a, errors_New "Invalid address bytes")
  else
    src ← slice_to b keyLen;
    let a := set_Key a (copy_array (Key a) src) in
    v ← index b keyLen;
    let a := set_Version a v in
    src ← slice_from b (keyLen + 1);
    let a := set_ChkSum a (copy_array (ChkSum a) src) in
    if negb (IsValidChecksum a) then
      Done (a, errors_New "Invalid checksum")
    else
      Done (a, None).

(** [func DecodeBase58Address(addr string) (Address, error)] *)
Definition DecodeBase58Address `{Hashes} `{Base58} (addr : string) : exec (Address * error) :=
  addressFromBytes (Base582Hex addr).

(** [func MustDecodeBase58Address(addr string) Address] *)
Definition MustDecodeBase58Address `{Hashes} `{Base58} (addr : string) : exec Address :=
  r ← addressFromBytes (Base582Hex addr);
  match r.2 with
  | Some _ => Panic ("Invalid address " +:+ addr)
  | None => Done r.1
  end.

(** [func (self *Address) Bytes() []byte]. The slices [b[:keyLen]] and
    [b[keyLen+1:]] share the array of [b]: what [copy] writes through them
    is written into [b]. *)
Definition Bytes (self : Address) : exec (list byte) :=
  let keyLen := len (Key self) in
  let b := make (keyLen + len (ChkSum self) + 1) in
  dst ← slice_to b keyLen;
  let b := copy dst (vec_to_list (Key self)) ++ drop keyLen b in
  b ← set_index b keyLen (Version self);
  dst ← slice_from b (keyLen + 1);
  let b := take (keyLen + 1) b ++ copy dst (vec_to_list (ChkSum self)) in
  Done b.

(** [a == b] on two arrays: they are compared element by element. *)
Definition array_eq {n : nat} (a b : vec byte n) : bool :=
  bytes_Equal (vec_to_list a) (vec_to_list b).

(** [func (self *Address) Verify(key PubKey) error]; [addressVersion] is
    the current value of the global. *)
Definition Verify `{Hashes} `{Keys} (addressVersion : byte) (self : Address)
    (key : PubKey) : error :=
  if negb (array_eq (Key self) (ToAddressHash key)) then
    errors_New "Public key invalid for address"
  else if negb (Byte.eqb (Version self) addressVersion) then
    errors_New "Invalid address version"
  else if negb (IsValidChecksum self) then
    errors_New "Invalid address checksum"
  else
    None.

(** The base58 encoder of the repository, with the conversion of its
    result to a string. *)
Class Base58Enc : Type := {
  Hex2Base58 : list byte -> string
}.

(** [func (self *Address) String() string] *)
Definition Address_String `{Base58Enc} (self : Address) : exec string :=
  b ← Bytes self;
  Done (Hex2Base58 b).

End coin.

(** ** Base58

    The codec on the Bitcoin alphabet: the bytes are read as one big-endian
    number and written in base 58, and every leading zero byte is written
    as the digit 1. It gives [Address_String] and [DecodeBase58Address] a
    concrete codec to run on; a character outside the alphabet is read as
    the digit 0. *)

Module base58.

Local Open Scope N_scope.

Definition alphabet : list Ascii.ascii :=
  list_ascii_of_string
    "123456789ABCDEFGHJKLMNPQRSTUVWXYZabcdefghijkmnopqrstuvwxyz".

(** The digits of [n] in [base], most significant first. *)
Fixpoint digits (fuel : nat) (base n : N) (acc : list N) : list N :=
  match fuel with
  | O => acc
  | S fuel' =>
      if n =? 0 then acc else digits fuel' base (n / base) (n mod base :: acc)
  end.

Definition number (base : N) (ds : list N) : N :=
  fold_left (fun acc d => acc * base + d) ds 0.

Fixpoint leading {A : Type} (is_zero : A -> bool) (l : list A) : nat :=
  match l with
  | x :: l' => if is_zero x then S (leading is_zero l') else O
  | [] => O
  end.

Fixpoint position (c : Ascii.ascii) (l : list Ascii.ascii) : N :=
  match l with
  | [] => 0
  | x :: l' => if Ascii.eqb c x then 0 else 1 + position c l'
  end.

Definition digit_of (c : Ascii.ascii) : N :=
  let i := position c alphabet in if i <? 58 then i else 0.

Definition char_of (d : N) : Ascii.ascii :=
  nth (N.to_nat d) alphabet "1"%char.

Definition encode (b : list byte) : string :=
  let n := number 256 (Byte.to_N <$> b) in
  string_of_list_ascii
    (replicate (leading (Byte.eqb x00) b) "1"%char ++
     (char_of <$> digits (N.size_nat n) 58 n []))%list.

Definition decode (s : string) : list byte :=
  let cs := list_ascii_of_string s in
  let n := number 58 (digit_of <$> cs) in
  (replicate (leading (Ascii.eqb "1"%char) cs) x00 ++
   ((fun d => default x00 (Byte.of_N d)) <$> digits (N.size_nat n) 256 n []))%list.

End base58.

(** ** SHA-256

    The digest that [SumSHA256] wraps, after FIPS 180-4, on 32-bit words
    kept as [N] with the wrap-around written out. It gives the codec a
    concrete hash to run on. *)

Module sha256.

Local Open Scope N_scope.

Definition w32 (x : N) : N := x mod 2 ^ 32.
Definition add32 (x y : N) : N := w32 (x + y).
Definition not32 (x : N) : N := N.lxor x 0xffffffff.
Definition rotr (n x : N) : N :=
  N.lor (N.shiftr x n) (w32 (N.shiftl x (32 - n))).
Definition shr (n x : N) : N := N.shiftr x n.

Definition Ch (x y z : N) : N := N.lxor (N.land x y) (N.land (not32 x) z).
Definition Maj (x y z : N) : N :=
  N.lxor (N.lxor (N.land x y) (N.land x z)) (N.land y z).
Definition bsig0 (x : N) : N := N.lxor (N.lxor (rotr 2 x) (rotr 13 x)) (rotr 22 x).
Definition bsig1 (x : N) : N := N.lxor (N.lxor (rotr 6 x) (rotr 11 x)) (rotr 25 x).
Definition ssig0 (x : N) : N := N.lxor (N.lxor (rotr 7 x) (rotr 18 x)) (shr 3 x).
Definition ssig1 (x : N) : N := N.lxor (N.lxor (rotr 17 x) (rotr 19 x)) (shr 10 x).

(** The constants are derived as the standard defines them, from the
    first primes: the round constants are the first 32 bits of the
    fractional parts of the cube roots of the first 64 primes, the initial
    hash value those of the square roots of the first 8. *)
Definition is_prime (n : N) : bool :=
  (1 <? n) &&
  forallb (fun d => (n <? d * d) || negb (n mod d =? 0))
          (N.of_nat <$> seq 2 (N.to_nat n - 2)).

Definition primes (count : nat) : list N :=
  take count (filter (fun n => is_prime n = true) (N.of_nat <$> seq 2 400)).

(** The integer cube root, fixed bit by bit from [2 ^ bits] downwards. *)
Fixpoint cbrt_bits (bits : nat) (x r : N) : N :=
  match bits with
  | O => r
  | S bits' =>
      let r' := r + 2 ^ N.of_nat bits' in
      cbrt_bits bits' x (if r' * r' * r' <=? x then r' else r)
  end.

Definition frac_cbrt (p : N) : N := w32 (cbrt_bits 40 (p * 2 ^ 96) 0).
Definition frac_sqrt (p : N) : N := w32 (N.sqrt (p * 2 ^ 64)).

Definition K : list N := Eval vm_compute in frac_cbrt <$> primes 64.

Definition H0 : list N := Eval vm_compute in frac_sqrt <$> primes 8.

(** The [n] low bytes of [x], most significant first. *)
Fixpoint be_bytes (n : nat) (x : N) : list N :=
  match n with
  | O => []
  | S n' => N.shiftr x (8 * N.of_nat n') mod 256 :: be_bytes n' x
  end.

(** Padding: the byte 0x80, zero bytes up to 56 modulo 64, then the bit
    length on eight bytes. *)
Definition pad (msg : list N) : list N :=
  let l := N.of_nat (length msg) in
  let k := (64 - (l + 9) mod 64) mod 64 in
  (msg ++ [0x80] ++ replicate (N.to_nat k) 0 ++ be_bytes 8 (8 * l))%list.

(** Big-endian words of a byte string whose length is a multiple of 4. *)
Fixpoint words (fuel : nat) (bs : list N) : list N :=
  match fuel, bs with
  | S fuel', b0 :: b1 :: b2 :: b3 :: bs' =>
      (b0 * 2 ^ 24 + b1 * 2 ^ 16 + b2 * 2 ^ 8 + b3) :: words fuel' bs'
  | _, _ => []
  end.

(** The message schedule: [n] more words after the ones in [w]. *)
Fixpoint schedule (n : nat) (w : list N) : list N :=
  match n with
  | O => w
  | S n' =>
      let t := length w in
      let at_ (i : nat) := nth (t - i) w 0 in
      let x := add32 (add32 (ssig1 (at_ 2%nat)) (at_ 7%nat))
                     (add32 (ssig0 (at_ 15%nat)) (at_ 16%nat)) in
      schedule n' (w ++ [x])%list
  end.

Record regs : Type := mkRegs { ra : N; rb : N; rc : N; rd : N;
                               re : N; rf : N; rg : N; rh : N }.

Definition round (s : regs) (kw : N * N) : regs :=
  let t1 := add32 (add32 (add32 (rh s) (bsig1 (re s)))
                         (add32 (Ch (re s) (rf s) (rg s)) kw.1)) kw.2 in
  let t2 := add32 (bsig0 (ra s)) (Maj (ra s) (rb s) (rc s)) in
  {| ra := add32 t1 t2; rb := ra s; rc := rb s; rd := rc s;
     re := add32 (rd s) t1; rf := re s; rg := rf s; rh := rg s |}.

Definition regs_of (h : list N) : regs :=
  {| ra := nth 0 h 0; rb := nth 1 h 0; rc := nth 2 h 0; rd := nth 3 h 0;
     re := nth 4 h 0; rf := nth 5 h 0; rg := nth 6 h 0; rh := nth 7 h 0 |}.

Definition list_of (s : regs) : list N :=
  [ra s; rb s; rc s; rd s; re s; rf s; rg s; rh s].

Definition compress (h : list N) (block : list N) : list N :=
  let w := schedule 48 block in
  let s := fold_left round (zip K w) (regs_of h) in
  zip_with add32 h (list_of s).

(** The blocks of 16 words are folded into the hash value. *)
Fixpoint blocks (fuel : nat) (h : list N) (ws : list N) : list N :=
  match fuel, ws with
  | S fuel', _ :: _ => blocks fuel' (compress h (take 16 ws)) (drop 16 ws)
  | _, _ => h
  end.

Definition byte_of (x : N) : byte := default x00 (Byte.of_N x).

Definition digest (msg : list byte) : list byte :=
  let bs := pad (Byte.to_N <$> msg) in
  let ws := words (length bs) bs in
  let h := blocks (length ws) H0 ws in
  byte_of <$> mjoin (be_bytes 4 <$> h).

Definition Sum (msg : list byte) : vec byte 32 :=
  copy_array (zero_array 32) (digest msg).

End sha256.

(** ** Concrete inputs *)

Module sample.

Import webrpc coin.

(** A gateway stub that returns a fixed status value, and handlers that
    answer every request with it. *)
Definition stub_handler : HandlerFunc string :=
  fun req gateway => makeSuccessResponse (req_ID req) (iface_of gateway).

Definition stub : Handlers :=
  {| Gatewayer := string;
     getStatusHandler := stub_handler;
     getLastBlocksHandler := stub_handler;
     getBlocksHandler := stub_handler;
     getOutputsHandler := stub_handler |}.

(** A handler built for the stub, with room for eight queued requests and
    two workers, and a shutdown channel that never delivers. *)
Definition stub_rpc : @rpcHandler stub :=
  @newRPCHandler stub 8 2 "synced" (fun _ => false).

(** A request that names an old protocol version. *)
Definition old_request : Request :=
  {| req_ID := "1"; req_Jsonrpc := "1.0";
     req_Method := "get_status"; req_Params := ∅ |}.

(** A shutdown channel that has already delivered, one that never does,
    a network that serves for ever and one whose listener fails. *)
Definition closed : chan := fun _ => true.
Definition silent : chan := fun _ => false.
Definition net_up : Net := fun _ _ => None.
Definition net_down : Net := fun _ _ => Some "listen tcp: address already in use".

(** The hash of the codec, instantiated with SHA-256 itself. *)
Definition sha : Hashes := {| SumSHA256 := sha256.Sum |}.

(** The address with the all-zero key on the test network, with the
    checksum that SHA-256 gives it. *)
Definition zero_key_address : Address :=
  {| Key := zero_array 20;
     Version := x1f;
     ChkSum := [# x4f; xd1; xf8; x77 ] |}.

(** A test double for the public keys: a key is its serialisation, and
    its address hash is the double SHA-256 cut to 20 bytes (the repository
    applies RIPEMD-160 to it instead). *)
Definition keys : Keys :=
  {| PubKey := list byte;
     ToAddressHash := fun pk =>
       copy_array (zero_array 20) (sha256.digest (sha256.digest pk)) |}.

(** The base58 codec on the Bitcoin alphabet. *)
Definition b58 : Base58 := {| Base582Hex := base58.decode |}.
Definition b58enc : Base58Enc := {| Hex2Base58 := base58.encode |}.

(** A shutdown channel that delivers from the second poll on. *)
Definition late : chan := fun k => negb (Nat.eqb k 0).

(** The same address with its last checksum byte changed. *)
Definition bad_address : Address :=
  {| Key := zero_array 20;
     Version := x1f;
     ChkSum := [# x4f; xd1; xf8; x78 ] |}.

End sample.

(** * Properties *)

(** ** The envelope *)

Section envelope.

Import webrpc.

Lemma has_result_iff (r : Response) : has_result r = true <-> Result r <> None.
Proof.
  unfold has_result. destruct (Result r); split; intros; congruence.
Qed.

Lemma has_error_iff (r : Response) : has_error r = true <-> Error r <> None.
Proof.
  unfold has_error. destruct (Error r); split; intros; congruence.
Qed.

(** C1, as the claim states it, fails: for the nil result value
    [makeSuccessResponse] builds a Response that has neither a result nor
    an error. *)
Lemma makeSuccessResponse_nil_has_neither :
  let r := makeSuccessResponse "1" iface_nil in
  has_result r = false /\ has_error r = false /\ ~ exactly_one r.
Proof.
  cbv zeta. repeat split; try reflexivity.
  unfold exactly_one. vm_compute. discriminate.
Qed.

(** C1, amended: a Response of [makeErrorResponse] has its error set and
    no result; a Response of [makeSuccessResponse] has no error and
    carries the given result value, so it has exactly one of the two
    exactly when that value is not nil; no Response of either constructor
    has both. *)
Theorem response_result_or_error (id : string) (result : iface)
    (code : Z) (message : string) :
  let ok := makeSuccessResponse id result in
  let ko := makeErrorResponse code message in
  (Error ok = None /\ Result ok = result /\
   (exactly_one ok <-> result <> None)) /\
  (Error ko = Some {| Code := code; Message := message; Data := "" |} /\
   Result ko = None /\ exactly_one ko) /\
  (has_result ok && has_error ok = false) /\
  (has_result ko && has_error ko = false).
Proof.
  cbv zeta. unfold exactly_one. repeat split; try reflexivity.
  - unfold has_result; simpl. destruct result; [congruence | discriminate].
  - unfold has_result; simpl. destruct result; [reflexivity | congruence].
  - unfold has_result; simpl. destruct result; reflexivity.
Qed.

(** The id that the two constructors give: [makeSuccessResponse] stores
    the id it is given, [makeErrorResponse] takes none and leaves the field
    null, for the caller to set. *)
Lemma constructor_id (id : string) (result : iface) (code : Z)
    (message : string) :
  ID (makeSuccessResponse id result) = Some id /\
  ID (makeErrorResponse code message) = None.
Proof.
  split; reflexivity.
Qed.

(** C3: the five error codes and their messages are those of the fixed
    taxonomy. *)
Theorem error_taxonomy :
  (errCodeParseError = -32700 /\ errMsgParseError = "Parse error") /\
  (errCodeInvalidRequest = -32600 /\ errMsgInvalidRequest = "Invalid Request") /\
  (errCodeMethodNotFound = -32601 /\ errMsgMethodNotFound = "Method not found") /\
  (errCodeInvalidParams = -32602 /\ errMsgInvalidParams = "Invalid params") /\
  (errCodeInternalError = -32603 /\ errMsgInternalError = "Internal error").
Proof.
  repeat split.
Qed.

(** C4: the Responses of both constructors carry the protocol literal
    "2.0" in their jsonrpc field. *)
Theorem response_jsonrpc (id : string) (result : iface) (code : Z)
    (message : string) :
  Jsonrpc (makeSuccessResponse id result) = "2.0" /\
  Jsonrpc (makeErrorResponse code message) = "2.0".
Proof.
  split; reflexivity.
Qed.

End envelope.

(** ** The registry, the validator and the run loop *)

Section service.

Import webrpc.

Context {node : Handlers}.

Lemma HandlerFunc_fresh (rpc : rpcHandler) (method : string)
    (h : HandlerFunc Gatewayer) :
  handlers rpc !! method = None ->
  rpcHandler_HandlerFunc rpc method h =
    Done {| handlers := <[method := h]> (handlers rpc);
            gateway := gateway rpc; queueSize := queueSize rpc;
            workerNum := workerNum rpc; quit := quit rpc |}.
Proof.
  intros Hfree. unfold rpcHandler_HandlerFunc. rewrite Hfree. reflexivity.
Qed.

Lemma HandlerFunc_bound (rpc : rpcHandler) (method : string)
    (h h' : HandlerFunc Gatewayer) :
  handlers rpc !! method = Some h' ->
  exists reason, rpcHandler_HandlerFunc rpc method h = Panic reason.
Proof.
  intros Hbound. unfold rpcHandler_HandlerFunc. rewrite Hbound. eauto.
Qed.

(** The handler that [makeRPC] builds, written out. *)
Lemma makeRPC_Done (qs wn : N) (gw : Gatewayer) (c : chan) :
  makeRPC qs wn gw c =
    Done {| handlers :=
              <["get_outputs" := getOutputsHandler]>
              (<["get_blocks" := getBlocksHandler]>
               (<["get_lastblocks" := getLastBlocksHandler]>
                (<["get_status" := getStatusHandler]> ∅)));
            gateway := gw; queueSize := qs; workerNum := wn; quit := c |}.
Proof.
  unfold makeRPC, newRPCHandler.
  rewrite HandlerFunc_fresh by apply lookup_empty. simpl.
  rewrite HandlerFunc_fresh by (simpl; by simplify_map_eq). simpl.
  rewrite HandlerFunc_fresh by (simpl; by simplify_map_eq). simpl.
  rewrite HandlerFunc_fresh by (simpl; by simplify_map_eq). simpl.
  reflexivity.
Qed.

(** C7: [makeRPC] does not fail, and the registry of the handler it
    returns binds the four names get_status, get_lastblocks, get_blocks and
    get_outputs, each to its own handler, and no other name. *)
Theorem makeRPC_registers_four (qs wn : N) (gw : Gatewayer) (c : chan) :
  exists rpc,
    makeRPC qs wn gw c = Done rpc /\
    dom (handlers rpc) = registered /\
    size (handlers rpc) = 4%nat /\
    handlers rpc !! "get_status" = Some getStatusHandler /\
    handlers rpc !! "get_lastblocks" = Some getLastBlocksHandler /\
    handlers rpc !! "get_blocks" = Some getBlocksHandler /\
    handlers rpc !! "get_outputs" = Some getOutputsHandler /\
    (forall method, method ∉ registered -> handlers rpc !! method = None).
Proof.
  eexists. split; [apply makeRPC_Done |]. simpl.
  assert (Hdom :
    dom (<["get_outputs" := getOutputsHandler]>
         (<["get_blocks" := getBlocksHandler]>
          (<["get_lastblocks" := getLastBlocksHandler]>
           (<["get_status" := getStatusHandler]>
            (∅ : gmap string (HandlerFunc Gatewayer)))))) = registered).
  { rewrite !dom_insert_L, dom_empty_L. unfold registered. set_solver. }
  split; [exact Hdom |].
  split.
  { rewrite <- size_dom, Hdom. reflexivity. }
  repeat (split; [by simplify_map_eq |]).
  intros method Hnot. apply not_elem_of_dom. by rewrite Hdom.
Qed.

(** *** The validator *)

Lemma validate_not_post (rpc : rpcHandler) (verb : string)
    (body : option Request) :
  verb <> "POST" -> validate rpc verb body = PlainReject errMsgNotPost.
Proof.
  intros Hverb. unfold validate.
  apply String.eqb_neq in Hverb. rewrite Hverb. reflexivity.
Qed.



(** A request that validation admits names a registered method and the
    protocol literal. *)
Lemma validate_Admit (rpc : rpcHandler) (verb : string)
    (body : option Request) (req : Request) :
  validate rpc verb body = Admit req ->
  verb = "POST" /\ body = Some req /\ req_Jsonrpc req = jsonRPC /\
  is_Some (handlers rpc !! req_Method req).
Proof.
  unfold validate. intros Hv.
  destruct (String.eqb verb "POST") eqn:Hverb; [| discriminate].
  apply String.eqb_eq in Hverb. simpl in Hv.
  destruct body as [r|]; [| discriminate].
  destruct (String.eqb (req_Jsonrpc r) jsonRPC) eqn:Hj; [| discriminate].
  apply String.eqb_eq in Hj. simpl in Hv.
  destruct (String.eqb (req_Method r) ""); [discriminate |].
  destruct (handlers rpc !! req_Method r) eqn:Hh; [| discriminate].
  injection Hv as <-. rewrite Hh. eauto.
Qed.

(** C5: a POST whose body does not decode is answered at once with a
    Response that has a null id and the error -32700 "Parse error"; the
    request is not admitted and the queue is left as it was. *)
Theorem parse_error_bypasses_queue (rpc : rpcHandler) (k : nat)
    (queue : list Request) :
  exists res,
    validate rpc "POST" None = Answer res /\
    ServeHTTP rpc k queue "POST" None = (Replied res, queue) /\
    ID res = None /\
    Error res = Some {| Code := -32700; Message := "Parse error"; Data := "" |} /\
    Result res = None.
Proof.
  exists (makeErrorResponse errCodeParseError errMsgParseError).
  repeat split.
Qed.

(** C6: a POST whose body decodes to a request with a jsonrpc field other
    than "2.0" is answered with a Response whose error has the code -32600
    and the message "invalid jsonrpc". *)
Theorem invalid_jsonrpc_rejected (rpc : rpcHandler) (k : nat)
    (queue : list Request) (req : Request) :
  req_Jsonrpc req <> "2.0" ->
  exists res err,
    ServeHTTP rpc k queue "POST" (Some req) = (Replied res, queue) /\
    Error res = Some err /\
    Code err = -32600 /\ Message err = "invalid jsonrpc".
Proof.
  intros Hj. apply String.eqb_neq in Hj.
  exists (set_ID (makeErrorResponse errCodeInvalidRequest errMsgInvalidJsonrpc)
                 (req_ID req)).
  eexists. unfold ServeHTTP, validate. simpl.
  unfold jsonRPC. rewrite Hj. simpl. repeat split.
Qed.


(** *** The run loop *)

(** One iteration decides the run: the three ways it can go. *)
Lemma Start_loop_shutdown (fuel k : nat) (addr : string) (rpc : rpcHandler)
    (c : chan) (net : Net) (log : list string) :
  c k = true ->
  Start_loop (S fuel) k addr rpc c net log = (Returned, log ++ ["webrpc quit"]).
Proof.
  intros Hc. simpl. rewrite Hc. reflexivity.
Qed.

Lemma Start_loop_serving (fuel k : nat) (addr : string) (rpc : rpcHandler)
    (c : chan) (net : Net) (log : list string) :
  c k = false -> net k addr = None ->
  Start_loop (S fuel) k addr rpc c net log =
    (Serving, log ++ ["start webrpc on http://" +:+ addr]).
Proof.
  intros Hc Hn. simpl. rewrite Hc. unfold http_ListenAndServe. rewrite Hn.
  reflexivity.
Qed.

Lemma Start_loop_fatal (fuel k : nat) (addr : string) (rpc : rpcHandler)
    (c : chan) (net : Net) (log : list string) (err : string) :
  c k = false -> net k addr = Some err ->
  Start_loop (S fuel) k addr rpc c net log =
    (Exited 1, (log ++ ["start webrpc on http://" +:+ addr]) ++ [err]).
Proof.
  intros Hc Hn. simpl. rewrite Hc. unfold http_ListenAndServe. rewrite Hn.
  reflexivity.
Qed.

Lemma Start_loop_Returned (fuel k : nat) (addr : string) (rpc : rpcHandler)
    (c : chan) (net : Net) (log log' : list string) :
  Start_loop fuel k addr rpc c net log = (Returned, log') ->
  c k = true /\ log' = log ++ ["webrpc quit"].
Proof.
  destruct fuel as [|fuel]; [discriminate |].
  destruct (c k) eqn:Hc.
  - rewrite Start_loop_shutdown by exact Hc. intros [= <-]. done.
  - destruct (net k addr) as [err|] eqn:Hn.
    + rewrite (Start_loop_fatal _ _ _ _ _ _ _ err) by assumption. discriminate.
    + rewrite Start_loop_serving by assumption. discriminate.
Qed.

(** C8: [Start] returns only through the branch that receives from the
    shutdown channel: if a call returns, the channel delivered at the poll
    and the last thing the call did was to log "webrpc quit"; a call whose
    listener fails ends with the process exiting with status 1, and does
    not return. With one loop iteration at hand the call is decided. *)
Theorem Start_returns_only_on_shutdown (fuel : nat) (net : Net)
    (addr : string) (qs wn : N) (gw : Gatewayer) (c : chan) :
  let run := Start fuel net addr qs wn gw c in
  (run.1 = Returned -> c 0%nat = true /\ run.2 = ["webrpc quit"]) /\
  (forall err, (0 < fuel)%nat -> c 0%nat = false ->
     net 0%nat addr = Some err ->
     run.1 = Exited 1 /\ run.1 <> Returned) /\
  ((0 < fuel)%nat -> c 0%nat = true -> run.1 = Returned) /\
  ((0 < fuel)%nat -> run.1 <> Spinning).
Proof.
  cbv zeta. unfold Start. rewrite makeRPC_Done.
  set (rpc := mkRpcHandler _ _ _ _ _ _).
  split; [| split; [| split]].
  - intros Hret.
    destruct (Start_loop fuel 0 addr rpc c net []) as [o log'] eqn:Hrun.
    simpl in Hret. subst o. by apply Start_loop_Returned in Hrun.
  - intros err Hfuel Hc Hn. destruct fuel as [|fuel]; [lia |].
    by rewrite (Start_loop_fatal _ _ _ _ _ _ _ err).
  - intros Hfuel Hc. destruct fuel as [|fuel]; [lia |].
    by rewrite Start_loop_shutdown.
  - intros Hfuel. destruct fuel as [|fuel]; [lia |].
    destruct (c 0%nat) eqn:Hc.
    + by rewrite Start_loop_shutdown.
    + destruct (net 0%nat addr) as [err|] eqn:Hn.
      * by rewrite (Start_loop_fatal _ _ _ _ _ _ _ err).
      * by rewrite Start_loop_serving.
Qed.

End service.

(** ** The address codec *)

Section codec.

Import coin.

Local Open Scope nat_scope.

Lemma bytes_Equal_true (a b : list byte) : bytes_Equal a b = true <-> a = b.
Proof.
  revert b. induction a as [|x a IH]; intros [|y b]; simpl;
    try (split; [discriminate | congruence]); [done |].
  rewrite andb_true_iff, IH. split.
  - intros [Hxy ->]. by rewrite (Byte.byte_dec_bl _ _ Hxy).
  - intros [= -> ->]. split; [by apply Byte.byte_dec_lb | done].
Qed.

Lemma bytes_Equal_false (a b : list byte) : bytes_Equal a b = false <-> a <> b.
Proof.
  rewrite <- bytes_Equal_true. destruct (bytes_Equal a b); split; congruence.
Qed.

(** [copy] overwrites a prefix of [dst] and keeps its length. *)
Lemma copy_spec (dst src : list byte) :
  copy dst src = take (length dst) src ++ drop (length src) dst.
Proof.
  revert src. induction dst as [|d dst IH]; intros [|s src]; simpl; try done.
  by rewrite IH.
Qed.

Lemma copy_array_spec {n : nat} (dst : vec byte n) (src : list byte) :
  vec_to_list (copy_array dst src) =
    take n src ++ drop (length src) (vec_to_list dst).
Proof.
  revert src. induction dst as [|d n dst IH]; intros [|s src]; simpl; try done.
  by rewrite IH.
Qed.

(** Copying at least [n] bytes into an array of [n] replaces it. *)
Lemma copy_array_full {n : nat} (dst : vec byte n) (src : list byte) :
  n <= length src -> vec_to_list (copy_array dst src) = take n src.
Proof.
  intros Hlen. rewrite copy_array_spec, drop_ge, app_nil_r; [done |].
  rewrite length_vec_to_list. lia.
Qed.

Context {hashes : Hashes}.

Lemma Checksum_spec (self : Address) :
  vec_to_list (Checksum self) =
    take 4 (vec_to_list (SumSHA256 (vec_to_list (Key self) ++ [Version self]))).
Proof.
  unfold Checksum, len. rewrite copy_array_full; [by rewrite take_take |].
  rewrite length_take, length_vec_to_list. lia.
Qed.

Lemma IsValidChecksum_spec (self : Address) :
  IsValidChecksum self = true <->
  vec_to_list (ChkSum self) =
    take 4 (vec_to_list (SumSHA256 (vec_to_list (Key self) ++ [Version self]))).
Proof.
  unfold IsValidChecksum. rewrite bytes_Equal_true, Checksum_spec.
  split; congruence.
Qed.

(** The checksum that [setChecksum] stores is valid. *)
Lemma setChecksum_valid (self : Address) :
  IsValidChecksum (setChecksum self) = true.
Proof.
  apply IsValidChecksum_spec. unfold setChecksum. simpl. apply Checksum_spec.
Qed.

(** [Bytes] does not panic; it lays out key, version and checksum. *)
Lemma Bytes_layout (self : Address) :
  Bytes self =
    Done (vec_to_list (Key self) ++ Version self :: vec_to_list (ChkSum self)).
Proof.
  destruct self as [k v c]. inv_vec k. inv_vec c. intros. reflexivity.
Qed.

(** A slice of 25 bytes, read as key, version and checksum. *)
Lemma addressFromBytes_layout (a : Address) :
  addressFromBytes (vec_to_list (Key a) ++ Version a :: vec_to_list (ChkSum a)) =
    Done (a, if IsValidChecksum a then None else errors_New "Invalid checksum").
Proof.
  destruct a as [k v c]. inv_vec k. inv_vec c. intros.
  unfold addressFromBytes.
  generalize (@IsValidChecksum hashes) as valid. intros valid.
  vm_compute. by destruct (valid _).
Qed.

(** A slice of any other length. *)
Lemma addressFromBytes_length (b : list byte) :
  length b <> 25 ->
  addressFromBytes b = Done (Address_zero, errors_New "Invalid address bytes").
Proof.
  intros Hlen. unfold addressFromBytes, len. simpl.
  apply Nat.eqb_neq in Hlen. by rewrite Hlen.
Qed.

Lemma length_25_layout (b : list byte) :
  length b = 25 ->
  exists a : Address,
    b = vec_to_list (Key a) ++ Version a :: vec_to_list (ChkSum a).
Proof.
  intros Hlen.
  do 25 (destruct b as [|? b]; [discriminate |]).
  destruct b; [| discriminate].
  by eexists (mkAddress [# _; _; _; _; _; _; _; _; _; _;
                           _; _; _; _; _; _; _; _; _; _] _ [# _; _; _; _]).
Qed.

Lemma Address_layout (a : Address) :
  let b := vec_to_list (Key a) ++ Version a :: vec_to_list (ChkSum a) in
  length b = 25 /\ take 20 b = vec_to_list (Key a) /\
  take 1 (drop 20 b) = [Version a] /\ drop 21 b = vec_to_list (ChkSum a).
Proof.
  destruct a as [k v c]. inv_vec k. inv_vec c. intros. by cbv zeta.
Qed.

(** C9: [DecodeBase58Address] does not panic; it returns an error exactly
    when the decoded bytes are not 25 or the last 4 of them differ from the
    first 4 bytes of the SHA-256 of the first 20 (the key) followed by the
    21st (the version); without an error the Address it returns holds the
    decoded key, version and checksum. *)
Theorem DecodeBase58Address_error_iff {base58 : Base58} (addr : string) :
  let b := Base582Hex addr in
  let key := take 20 b in
  let version := take 1 (drop 20 b) in
  let trailer := drop 21 b in
  let expected := take 4 (vec_to_list (SumSHA256 (key ++ version))) in
  exists (a : Address) (err : error),
    DecodeBase58Address addr = Done (a, err) /\
    (err <> None <-> length b <> 25 \/ trailer <> expected) /\
    (err = None ->
       vec_to_list (Key a) = key /\ [Version a] = version /\
       vec_to_list (ChkSum a) = trailer).
Proof.
  cbv zeta. unfold DecodeBase58Address.
  generalize (Base582Hex addr) as b. intros b.
  destruct (decide (length b = 25)) as [Hlen|Hlen].
  - destruct (length_25_layout b Hlen) as [a ->].
    destruct (Address_layout a) as (_ & -> & -> & ->).
    exists a. eexists. split; [apply addressFromBytes_layout |].
    destruct (IsValidChecksum a) eqn:Hvalid.
    + apply IsValidChecksum_spec in Hvalid. split.
      * split; [done |]. intros [? | ?]; [| done].
        by destruct (Address_layout a) as [? _].
      * done.
    + split; [| done]. split; [| done]. intros _. right.
      intros Heq. apply IsValidChecksum_spec in Heq. congruence.
  - exists Address_zero. eexists.
    split; [by apply addressFromBytes_length |].
    split; [| done]. split; [by left | done].
Qed.

(** C10: [Bytes] always yields 25 bytes, the key, then the version, then
    the checksum; for an Address whose checksum is valid
    [addressFromBytes] applied to its [Bytes] returns that Address and no
    error; every Address of [AddressFromPubKey] has a valid checksum. *)
Theorem Bytes_addressFromBytes_roundtrip :
  (forall a : Address,
     exists b, Bytes a = Done b /\ length b = 25 /\
       b = vec_to_list (Key a) ++ [Version a] ++ vec_to_list (ChkSum a)) /\
  (forall a : Address,
     IsValidChecksum a = true ->
     Bytes a ≫= addressFromBytes = Done (a, None)) /\
  (forall (K : Keys) (addressVersion : byte) (pubKey : PubKey),
     let a := AddressFromPubKey addressVersion pubKey in
     IsValidChecksum a = true /\
     Bytes a ≫= addressFromBytes = Done (a, None)).
Proof.
  assert (Hround : forall a : Address, IsValidChecksum a = true ->
                   Bytes a ≫= addressFromBytes = Done (a, None)).
  { intros a Hvalid. rewrite Bytes_layout. simpl.
    change (addressFromBytes
              (vec_to_list (Key a) ++ Version a :: vec_to_list (ChkSum a)) =
            Done (a, None)).
    by rewrite addressFromBytes_layout, Hvalid. }
  split; [| split].
  - intros a. eexists. split; [apply Bytes_layout |].
    split; [| done]. by destruct (Address_layout a) as [? _].
  - exact Hround.
  - intros K addressVersion pubKey. cbv zeta.
    assert (Hvalid : IsValidChecksum (AddressFromPubKey addressVersion pubKey) = true)
      by apply setChecksum_valid.
    split; [exact Hvalid | by apply Hround].
Qed.

End codec.

(** ** Address versions *)

Section versions.

Import coin.

Lemma addressVersions_lookup (name : string) :
  addressVersions !! name =
    if decide (name = "main") then Some x0f
    else if decide (name = "test") then Some x1f
    else None.
Proof.
  unfold addressVersions.
  destruct (decide (name = "main")) as [->|Hmain]; [by simplify_map_eq |].
  destruct (decide (name = "test")) as [->|Htest]; [by simplify_map_eq |].
  by simplify_map_eq.
Qed.

(** X1: [VersionByName] knows the two names "main" and "test", with the
    versions 0x0F and 0x1F; for every other name it answers the zero byte
    and false. *)
Theorem VersionByName_known (name : string) (v : byte) :
  (VersionByName name = (v, true) <->
     (name = "main" /\ v = x0f) \/ (name = "test" /\ v = x1f)) /\
  (VersionByName name = (v, false) <->
     name <> "main" /\ name <> "test" /\ v = x00).
Proof.
  unfold VersionByName. rewrite addressVersions_lookup.
  destruct (decide (name = "main")) as [->|Hmain];
    [| destruct (decide (name = "test")) as [->|Htest]].
  - split; split.
    + intros [= <-]. by left.
    + intros [[_ ->] | [? _]]; done.
    + discriminate.
    + by intros [? _].
  - split; split.
    + intros [= <-]. by right.
    + intros [[? _] | [_ ->]]; done.
    + discriminate.
    + by intros (_ & ? & _).
  - split; split.
    + discriminate.
    + intros [[? _] | [? _]]; done.
    + by intros [= <-].
    + by intros (_ & _ & ->).
Qed.

(** X2: [SetAddressVersion] (through [MustVersionByName]) sets the global
    to 0x0F for "main" and to 0x1F for "test", the value the global starts
    with; for every other name it panics, naming the name, and so leaves
    the global as it was. *)
Theorem SetAddressVersion_known (name : string) :
  SetAddressVersion "main" = Done x0f /\
  SetAddressVersion "test" = Done addressVersion0 /\
  addressVersion0 = x1f /\
  (forall v, SetAddressVersion name = Done v <->
     (name = "main" /\ v = x0f) \/ (name = "test" /\ v = x1f)) /\
  (SetAddressVersion name = Panic ("Invalid version name: " +:+ name) <->
     name <> "main" /\ name <> "test").
Proof.
  split; [done |]. split; [done |]. split; [done |].
  unfold SetAddressVersion, MustVersionByName, VersionByName.
  rewrite addressVersions_lookup.
  destruct (decide (name = "main")) as [->|Hmain];
    [| destruct (decide (name = "test")) as [->|Htest]]; simpl.
  - split.
    + intros v. split; [intros [= <-]; by left |].
      intros [[_ ->] | [? _]]; done.
    + split; [discriminate | by intros [? _]].
  - split.
    + intros v. split; [intros [= <-]; by right |].
      intros [[? _] | [_ ->]]; done.
    + split; [discriminate | by intros [_ ?]].
  - split.
    + intros v. split; [discriminate |].
      intros [[? _] | [? _]]; done.
    + done.
Qed.

End versions.

(** ** The address codec, continued *)

Section codec_more.

Import coin.

Local Open Scope nat_scope.

Context {hashes : Hashes}.

Lemma array_eq_true {n : nat} (a b : vec byte n) : array_eq a b = true <-> a = b.
Proof.
  unfold array_eq. rewrite bytes_Equal_true. split; [| by intros ->].
  apply vec_to_list_inj2.
Qed.

Lemma byte_eqb_true (x y : byte) : Byte.eqb x y = true <-> x = y.
Proof.
  split; [apply Byte.byte_dec_bl | apply Byte.byte_dec_lb].
Qed.

(** An Address is its three fields. *)
Lemma Address_eq (a a' : Address) :
  Key a = Key a' -> Version a = Version a' -> ChkSum a = ChkSum a' -> a = a'.
Proof.
  destruct a, a'. simpl. by intros -> -> ->.
Qed.

Lemma Address_layout_inj (a a' : Address) :
  vec_to_list (Key a) ++ Version a :: vec_to_list (ChkSum a) =
  vec_to_list (Key a') ++ Version a' :: vec_to_list (ChkSum a') ->
  a = a'.
Proof.
  intros Heq.
  destruct (Address_layout a) as (_ & Hk & Hv & Hc).
  destruct (Address_layout a') as (_ & Hk' & Hv' & Hc').
  cbv zeta in *. rewrite Heq in Hk, Hv, Hc.
  apply Address_eq.
  - apply vec_to_list_inj2. congruence.
  - congruence.
  - apply vec_to_list_inj2. congruence.
Qed.

(** [addressFromBytes] does not panic. *)
Lemma addressFromBytes_total (b : list byte) :
  exists a err, addressFromBytes b = Done (a, err).
Proof.
  destruct (decide (length b = 25)) as [Hlen|Hlen].
  - destruct (length_25_layout b Hlen) as [a ->].
    rewrite addressFromBytes_layout. eauto.
  - rewrite addressFromBytes_length by done. eauto.
Qed.

(** X3: the checksum of an Address is valid exactly when [setChecksum]
    leaves the Address as it is; [setChecksum] changes the checksum field
    only, and a second [setChecksum] changes nothing. So an Address with a
    valid checksum is determined by its key and its version. *)
Theorem setChecksum_fixpoint (a : Address) :
  (IsValidChecksum a = true <-> setChecksum a = a) /\
  Key (setChecksum a) = Key a /\
  Version (setChecksum a) = Version a /\
  setChecksum (setChecksum a) = setChecksum a /\
  (forall a' : Address,
     IsValidChecksum a = true -> IsValidChecksum a' = true ->
     Key a = Key a' -> Version a = Version a' -> a = a').
Proof.
  assert (Hfix : forall x : Address,
            IsValidChecksum x = true <-> setChecksum x = x).
  { intros x. rewrite IsValidChecksum_spec, <- Checksum_spec. split.
    - intros Heq. apply Address_eq; try done. simpl.
      apply vec_to_list_inj2. by rewrite Heq.
    - intros Heq. rewrite <- Heq at 1. done. }
  split; [apply Hfix |]. split; [done |]. split; [done |]. split.
  - apply Hfix, setChecksum_valid.
  - intros a' Hv Hv' Hk Hver.
    apply Hfix in Hv. apply Hfix in Hv'. rewrite <- Hv, <- Hv'.
    unfold setChecksum, Checksum, set_ChkSum. by rewrite Hk, Hver.
Qed.

(** X13: the checksum of an Address is the first four bytes of the
    SHA-256 of its key followed by its version; the checksum field that
    the Address holds has no part in it. *)
Theorem Checksum_first_four_bytes (a : Address) (c : vec byte 4) :
  vec_to_list (Checksum a) =
    take 4 (vec_to_list (SumSHA256 (vec_to_list (Key a) ++ [Version a]))) /\
  length (vec_to_list (Checksum a)) = 4 /\
  Checksum (set_ChkSum a c) = Checksum a.
Proof.
  split; [apply Checksum_spec |]. split; [| done].
  by rewrite length_vec_to_list.
Qed.

(** X4: [Bytes] gives two Addresses the same bytes only if they are the
    same Address. *)
Theorem Bytes_injective (a a' : Address) :
  Bytes a = Bytes a' <-> a = a'.
Proof.
  split; [| by intros ->].
  rewrite !Bytes_layout. intros [= Heq]. by apply Address_layout_inj.
Qed.

(** X5: [addressFromBytes] of any 25 bytes returns an Address whose
    [Bytes] are those 25 bytes, whether or not it also returns the
    checksum error. *)
Theorem addressFromBytes_Bytes (b : list byte) :
  length b = 25 ->
  exists a err, addressFromBytes b = Done (a, err) /\ Bytes a = Done b.
Proof.
  intros Hlen. destruct (length_25_layout b Hlen) as [a ->].
  exists a. eexists. split; [apply addressFromBytes_layout | apply Bytes_layout].
Qed.

(** X6: the error of [addressFromBytes] tells the two failures apart. It
    is "Invalid address bytes" exactly when the slice is not 25 bytes
    long, and then the Address returned is the zero Address; it is
    "Invalid checksum" exactly when the slice is 25 bytes long and the
    checksum of the Address read from it is not valid; there is no other
    error. *)
Theorem addressFromBytes_errors (b : list byte) :
  exists a err,
    addressFromBytes b = Done (a, err) /\
    (err = Some "Invalid address bytes" <-> length b <> 25) /\
    (length b <> 25 -> a = Address_zero) /\
    (err = Some "Invalid checksum" <->
       length b = 25 /\ IsValidChecksum a = false) /\
    (err = None <-> length b = 25 /\ IsValidChecksum a = true).
Proof.
  destruct (decide (length b = 25)) as [Hlen|Hlen].
  - destruct (length_25_layout b Hlen) as [a Hb].
    exists a. eexists. split; [rewrite Hb; apply addressFromBytes_layout |].
    destruct (IsValidChecksum a); unfold errors_New;
      repeat split; try done; try (by intros [_ ?]).
  - exists Address_zero. eexists.
    split; [by apply addressFromBytes_length |].
    unfold errors_New. repeat split; try done; by intros [? _].
Qed.

(** X9: [MustDecodeBase58Address] returns an Address exactly when
    [DecodeBase58Address] returns that Address and no error; when
    [DecodeBase58Address] returns an error it panics, naming the string. *)
Theorem MustDecodeBase58Address_iff {base58 : Base58} (addr : string) :
  (forall a, MustDecodeBase58Address addr = Done a <->
             DecodeBase58Address addr = Done (a, None)) /\
  (MustDecodeBase58Address addr = Panic ("Invalid address " +:+ addr) <->
   exists a text, DecodeBase58Address addr = Done (a, Some text)).
Proof.
  unfold MustDecodeBase58Address, DecodeBase58Address.
  destruct (addressFromBytes_total (Base582Hex addr)) as (a0 & err & ->).
  simpl. destruct err as [text|]; simpl.
  - split.
    + intros a. split; discriminate.
    + split; [eauto | done].
  - split.
    + intros a. split; intros [= <-]; done.
    + split; [discriminate | by intros (? & ? & [=])].
Qed.

(** X10: the string of an Address with a valid checksum decodes to that
    Address and no error, provided the base58 decoder gives back the
    bytes of the Address from what the encoder made of them. *)
Theorem String_DecodeBase58Address_roundtrip {base58 : Base58}
    {enc : Base58Enc} (a : Address) :
  IsValidChecksum a = true ->
  Base582Hex
    (Hex2Base58 (vec_to_list (Key a) ++ Version a :: vec_to_list (ChkSum a))) =
    vec_to_list (Key a) ++ Version a :: vec_to_list (ChkSum a) ->
  Address_String a ≫= DecodeBase58Address = Done (a, None).
Proof.
  intros Hvalid Hcodec. unfold Address_String. rewrite Bytes_layout. simpl.
  change (DecodeBase58Address
            (Hex2Base58
               (vec_to_list (Key a) ++ Version a :: vec_to_list (ChkSum a))) =
          Done (a, None)).
  unfold DecodeBase58Address.
  by rewrite Hcodec, addressFromBytes_layout, Hvalid.
Qed.

Context {keys : Keys}.

(** X12: the Address of a public key holds the given version and the
    address hash of the key; two calls of [AddressFromPubKey] give the
    same Address exactly when the versions are the same and the keys have
    the same address hash. *)
Theorem AddressFromPubKey_injective (v v' : byte) (pk pk' : PubKey) :
  Version (AddressFromPubKey v pk) = v /\
  Key (AddressFromPubKey v pk) = ToAddressHash pk /\
  (AddressFromPubKey v pk = AddressFromPubKey v' pk' <->
     v = v' /\ ToAddressHash pk = ToAddressHash pk').
Proof.
  split; [done |]. split; [done |]. split.
  - intros Heq. split.
    + by apply (f_equal Version) in Heq.
    + by apply (f_equal Key) in Heq.
  - intros [-> Hk]. unfold AddressFromPubKey. by rewrite Hk.
Qed.

(** X7: [Verify] returns no error exactly for the Address that
    [AddressFromPubKey] makes of the key under the current version. *)
Theorem Verify_nil_iff (addressVersion : byte) (a : Address) (key : PubKey) :
  Verify addressVersion a key = None <->
  a = AddressFromPubKey addressVersion key.
Proof.
  unfold Verify. split.
  - destruct (array_eq (Key a) (ToAddressHash key)) eqn:Hk; [| discriminate].
    destruct (Byte.eqb (Version a) addressVersion) eqn:Hv; [| discriminate].
    destruct (IsValidChecksum a) eqn:Hc; [| discriminate].
    intros _. simpl.
    apply array_eq_true in Hk. apply byte_eqb_true in Hv.
    apply IsValidChecksum_spec in Hc. rewrite <- Checksum_spec in Hc.
    apply Address_eq; simpl; try done.
    apply vec_to_list_inj2. rewrite Hc.
    unfold Checksum. simpl. by rewrite Hk, Hv.
  - intros ->.
    assert (Hk : array_eq (Key (AddressFromPubKey addressVersion key))
                          (ToAddressHash key) = true) by by apply array_eq_true.
    assert (Hv : Byte.eqb (Version (AddressFromPubKey addressVersion key))
                          addressVersion = true) by by apply byte_eqb_true.
    rewrite Hk, Hv. unfold AddressFromPubKey. by rewrite setChecksum_valid.
Qed.

(** X8: the Address made of a key under one version does not verify under
    another version: the error is "Invalid address version"; and it does
    not verify against a key with another address hash: the error is
    "Public key invalid for address", whatever the versions are. *)
Theorem Verify_other_version_or_key (v v' : byte) (pk pk' : PubKey) :
  (v <> v' ->
   Verify v' (AddressFromPubKey v pk) pk = Some "Invalid address version") /\
  (ToAddressHash pk <> ToAddressHash pk' ->
   Verify v' (AddressFromPubKey v pk) pk' =
     Some "Public key invalid for address").
Proof.
  unfold Verify. split.
  - intros Hv.
    assert (Hk : array_eq (Key (AddressFromPubKey v pk))
                          (ToAddressHash pk) = true) by by apply array_eq_true.
    rewrite Hk. simpl.
    destruct (Byte.eqb v v') eqn:Hvv; [| done].
    by apply byte_eqb_true in Hvv.
  - intros Hk.
    destruct (array_eq (Key (AddressFromPubKey v pk)) (ToAddressHash pk')) eqn:Hkk;
      [| done].
    by apply array_eq_true in Hkk.
Qed.

End codec_more.

(** ** The run loop, continued *)

Section run_loop_more.

Import webrpc.

Context {node : Handlers}.

(** X11: the first iteration decides a call of [Start]: what the call
    does depends on the first poll of the shutdown channel and on the
    first call of the listener only. A shutdown that is signalled after
    the first poll is not seen, and the listener is not started again. *)
Theorem Start_first_poll_decides (fuel fuel' : nat) (net net' : Net)
    (addr : string) (qs wn : N) (gw : Gatewayer) (c c' : chan) :
  (0 < fuel)%nat -> (0 < fuel')%nat ->
  c 0%nat = c' 0%nat -> net 0%nat addr = net' 0%nat addr ->
  Start fuel net addr qs wn gw c = Start fuel' net' addr qs wn gw c'.
Proof.
  intros Hfuel Hfuel' Hc Hn. unfold Start. rewrite !makeRPC_Done.
  destruct fuel as [|fuel]; [lia |]. destruct fuel' as [|fuel']; [lia |].
  destruct (c 0%nat) eqn:Hc0.
  - by rewrite !Start_loop_shutdown.
  - destruct (net 0%nat addr) as [err|] eqn:Hn0.
    + by rewrite !(Start_loop_fatal _ _ _ _ _ _ _ err).
    + by rewrite !Start_loop_serving.
Qed.

End run_loop_more.

(** ** Concrete runs *)

Section runs.

Import webrpc coin sample.

(** SHA-256 of "abc", the first test vector of FIPS 180-4. *)
Example sha256_abc :
  sha256.digest [x61; x62; x63] =
    [ xba; x78; x16; xbf; x8f; x01; xcf; xea; x41; x41; x40; xde; x5d; xae;
      x22; x23; xb0; x03; x61; xa3; x96; x17; x7a; x9c; xb4; x10; xff; x61;
      xf2; x00; x15; xad ].
Proof. vm_compute. reflexivity. Qed.

(** The scenario of a well-formed get_status request: it is queued. *)
Example get_status_is_queued :
  exists rpc,
    @makeRPC stub 8 2 "synced" silent = Done rpc /\
    ServeHTTP rpc 0 [] "POST" (Some (NewRequest "get_status" ∅ "1")) =
      (Queued, [NewRequest "get_status" ∅ "1"]).
Proof.
  eexists. split; [apply makeRPC_Done |]. vm_compute. reflexivity.
Qed.

(** A request for a method that is not registered. *)
Example no_such_method_is_answered :
  exists rpc,
    @makeRPC stub 8 2 "synced" silent = Done rpc /\
    ServeHTTP rpc 0 [] "POST" (Some (NewRequest "no_such_method" ∅ "7")) =
      (Replied (set_ID (makeErrorResponse (-32601) "Method not found") "7"), []).
Proof.
  eexists. split; [apply makeRPC_Done |]. vm_compute. reflexivity.
Qed.

(** A second registration of a bound name is fatal. *)
Example duplicate_registration_panics :
  exists rpc,
    @makeRPC stub 8 2 "synced" silent = Done rpc /\
    rpcHandler_HandlerFunc rpc "get_blocks" stub_handler =
      Panic "method already registered".
Proof.
  eexists. split; [apply makeRPC_Done |]. vm_compute. reflexivity.
Qed.

(** [Start] with no shutdown signal and a working listener keeps serving. *)
Example Start_keeps_serving :
  @Start stub 3 net_up "127.0.0.1:6422" 8 2 "synced" silent =
    (Serving, ["start webrpc on http://127.0.0.1:6422"]).
Proof. vm_compute. reflexivity. Qed.

(** The wrong protocol version of [old_request] is rejected. *)
Lemma invalid_jsonrpc_rejected_witness :
  req_Jsonrpc old_request <> "2.0" /\
  exists res err,
    ServeHTTP stub_rpc 0 [] "POST" (Some old_request) = (Replied res, []) /\
    Error res = Some err /\
    Code err = -32600 /\ Message err = "invalid jsonrpc".
Proof.
  split; [discriminate |].
  apply (@invalid_jsonrpc_rejected stub stub_rpc 0%nat [] old_request).
  discriminate.
Defined.


(** After the shutdown signal a valid request is not admitted, and a
    full queue answers otherwise. *)
Example stopped_is_not_overloaded :
  exists rpc,
    @makeRPC stub 1 2 "synced" closed = Done rpc /\
    ServeHTTP rpc 0 [] "POST" (Some (NewRequest "get_status" ∅ "1")) =
      (Stopped, []) /\
    exists rpc',
      @makeRPC stub 1 2 "synced" silent = Done rpc' /\
      ServeHTTP rpc' 0 [old_request] "POST"
                (Some (NewRequest "get_status" ∅ "1")) =
        (Overloaded, [old_request]).
Proof.
  eexists. split; [apply makeRPC_Done |]. split; [vm_compute; reflexivity |].
  eexists. split; [apply makeRPC_Done |]. vm_compute. reflexivity.
Qed.

(** [Start] on a channel that has delivered returns; [Start] whose
    listener fails ends the process. *)
Lemma Start_returns_only_on_shutdown_witness :
  ((@Start stub 1 net_up "127.0.0.1:6422" 8 2 "synced" closed).1 = Returned /\
   (@Start stub 1 net_up "127.0.0.1:6422" 8 2 "synced" closed).2 = ["webrpc quit"]) /\
  (@Start stub 1 net_down "127.0.0.1:6422" 8 2 "synced" silent).1 = Exited 1.
Proof.
  split.
  - split; [vm_compute; reflexivity |].
    apply (@Start_returns_only_on_shutdown stub 1 net_up "127.0.0.1:6422"
             8%N 2%N "synced" closed).
    vm_compute; reflexivity.
  - apply (proj1 (proj2 (@Start_returns_only_on_shutdown stub 1 net_down
             "127.0.0.1:6422" 8%N 2%N "synced" silent)))
      with (err := "listen tcp: address already in use");
      [lia | reflexivity | reflexivity].
Defined.

(** The three ways [addressFromBytes] can go, under SHA-256. *)
Example addressFromBytes_valid :
  @addressFromBytes sha
    (replicate 20 x00 ++ [x1f] ++ [x4f; xd1; xf8; x77]) =
    Done (zero_key_address, None).
Proof. vm_compute. reflexivity. Qed.

Example addressFromBytes_bad_checksum :
  @addressFromBytes sha
    (replicate 20 x00 ++ [x1f] ++ [x4f; xd1; xf8; x78]) =
    Done (bad_address, errors_New "Invalid checksum").
Proof. vm_compute. reflexivity. Qed.

Example addressFromBytes_bad_length :
  @addressFromBytes sha (replicate 20 x00 ++ [x1f]) =
    Done (Address_zero, errors_New "Invalid address bytes").
Proof. vm_compute. reflexivity. Qed.

(** The round trip of [zero_key_address], whose checksum is the one that
    SHA-256 gives. *)
Lemma Bytes_addressFromBytes_roundtrip_witness :
  @IsValidChecksum sha zero_key_address = true /\
  Bytes zero_key_address ≫= @addressFromBytes sha = Done (zero_key_address, None).
Proof.
  split; [vm_compute; reflexivity |].
  apply (proj1 (proj2 (@Bytes_addressFromBytes_roundtrip sha))).
  vm_compute; reflexivity.
Defined.

(** Twenty-five bytes with a wrong checksum are still read and written
    back. *)
Lemma addressFromBytes_Bytes_witness :
  length (replicate 20 x00 ++ [x1f; x4f; xd1; xf8; x78]) = 25%nat /\
  exists a err,
    @addressFromBytes sha (replicate 20 x00 ++ [x1f; x4f; xd1; xf8; x78]) =
      Done (a, err) /\
    Bytes a = Done (replicate 20 x00 ++ [x1f; x4f; xd1; xf8; x78]).
Proof.
  split; [reflexivity |].
  apply (@addressFromBytes_Bytes sha). reflexivity.
Defined.

(** An Address of the test network does not verify on the main network. *)
Lemma Verify_other_version_or_key_witness :
  x1f <> x0f /\
  @Verify sha keys x0f (@AddressFromPubKey sha keys x1f [x01; x02]) [x01; x02] =
    Some "Invalid address version".
Proof.
  split; [discriminate |].
  apply (@Verify_other_version_or_key sha keys x1f x0f [x01; x02] [x01; x02]).
  discriminate.
Defined.

(** The string of [zero_key_address] under the base58 codec, and back. *)
Lemma String_DecodeBase58Address_roundtrip_witness :
  @Address_String b58enc zero_key_address = Done "111111111111111111114XtpHF4" /\
  @Address_String b58enc zero_key_address ≫= @DecodeBase58Address sha b58 =
    Done (zero_key_address, None).
Proof.
  split; [vm_compute; reflexivity |].
  apply (@String_DecodeBase58Address_roundtrip sha b58 b58enc zero_key_address);
    vm_compute; reflexivity.
Defined.

(** A shutdown signalled after the first poll changes nothing. *)
Lemma Start_first_poll_decides_witness :
  @Start stub 3 net_up "127.0.0.1:6422" 8 2 "synced" late =
  @Start stub 1 net_up "127.0.0.1:6422" 8 2 "synced" silent.
Proof.
  apply (@Start_first_poll_decides stub); [lia | lia | reflexivity | reflexivity].
Defined.

End runs.
